(** * medusa-mcp: the operation-to-tool compilers

    A shallow embedding of the two service classes

      - [src/services/medusa-admin.ts]  (class MedusaAdminService)
      - the store counterpart            (class MedusaStoreService)

    Both classes have the same two methods, [wrapPath] and [defineTools];
    they differ in the decoration of names and descriptions, in the table of
    body fields, in the default taken for a [get] operation without
    [parameters], and in where the bearer credential comes from.  The
    embedding is therefore written once, over a [Surface], and every
    difference between the two files is a [match] on the surface.

    Modelling boundary.  JavaScript objects are finite maps of their own
    properties: the prototype chain (inherited properties, the [__proto__]
    accessor) is not modelled.  Strings are sequences of characters; the
    operations used by the code (concatenation, first-occurrence search) do
    not depend on the encoding.  The number type and its [toString] are a
    parameter ([JsNumber]).  A handler is embedded as the one call of
    [this.sdk.client.fetch] it makes; the diagnostic line the store handler
    prints for a [get] request is left out. *)

From Stdlib Require Import ZArith Ascii String DecimalString.
From stdpp Require Import base option list strings gmap fin_maps.

Set Warnings "-register-all,-clear-no-such-hyp".

(** ** JavaScript values *)

(** Numbers only reach this code to be turned into text by [String(v)]. *)
Class JsNumber := {
  Num : Type;
  Number_toString : Num → string
}.

(** Integer-valued numbers, printed in decimal (what [Number::toString]
    does for integers of magnitude below 10^21). *)
Definition Z_toString (z : Z) : string :=
  NilZero.string_of_int (Z.to_int z).

#[global] Instance Z_JsNumber : JsNumber :=
  {| Num := Z; Number_toString := Z_toString |}.

(** [parts.join(sep)] over parts that are already strings. *)
Fixpoint join_with (sep : string) (parts : list string) : string :=
  match parts with
  | [] => ""
  | [p] => p
  | p :: rest => p +:+ sep +:+ join_with sep rest
  end.

Section JsValues.
Context `{JsNumber}.

Inductive JsVal :=
  | JUndefined
  | JNull
  | JBool (b : bool)
  | JNum (n : Num)
  | JStr (s : string)
  | JArr (elems : list JsVal)
  | JObj (props : gmap string JsVal).

(** [obj[key]]: a missing own property reads as [undefined]. *)
Definition js_get (obj : gmap string JsVal) (key : string) : JsVal :=
  default JUndefined (obj !! key).

(** [String(v)].  An array is joined with commas, [null] and [undefined]
    elements giving the empty string; a plain object prints as
    ["[object Object]"]. *)
Fixpoint js_String (v : JsVal) : string :=
  match v with
  | JUndefined => "undefined"
  | JNull => "null"
  | JBool true => "true"
  | JBool false => "false"
  | JNum n => Number_toString n
  | JStr s => s
  | JArr elems =>
      join_with ","
        (map (λ e, match e with
                   | JUndefined | JNull => ""
                   | _ => js_String e
                   end) elems)
  | JObj _ => "[object Object]"
  end.

(** [value === undefined || value === null] *)
Definition is_nullish (v : JsVal) : bool :=
  match v with
  | JUndefined | JNull => true
  | _ => false
  end.

End JsValues.

(** ** Strings: [String.prototype.replace] with a string pattern *)

(** [strip_prefix p s] is the rest of [s] after its prefix [p], if any. *)
Fixpoint strip_prefix (p s : string) : option string :=
  match p, s with
  | EmptyString, _ => Some s
  | String a p', String b s' =>
      if Ascii.eqb a b then strip_prefix p' s' else None
  | String _ _, EmptyString => None
  end.

(** The first occurrence of [pat] in [s], as the text before it and the text
    after it. *)
Fixpoint find_first (pat s : string) : option (string * string) :=
  match strip_prefix pat s with
  | Some rest => Some (""%string, rest)
  | None =>
      match s with
      | EmptyString => None
      | String c s' =>
          match find_first pat s' with
          | Some (before, after) => Some (String c before, after)
          | None => None
          end
      end
  end.

(** ECMA-262 GetSubstitution for a string pattern: there are no captures,
    so of the dollar forms only [$$], [$&], [$`] and [$'] are special; any
    other character, a lone dollar included, stands for itself. *)
Fixpoint GetSubstitution (matched before after template : string) : string :=
  match template with
  | EmptyString => ""
  | String c rest =>
      let literal := String c (GetSubstitution matched before after rest) in
      if Ascii.eqb c "$"%char then
        match rest with
        | EmptyString => literal
        | String d rest' =>
            if Ascii.eqb d "$"%char then
              "$" +:+ GetSubstitution matched before after rest'
            else if Ascii.eqb d "&"%char then
              matched +:+ GetSubstitution matched before after rest'
            else if Ascii.eqb d "`"%char then
              before +:+ GetSubstitution matched before after rest'
            else if Ascii.eqb d "'"%char then
              after +:+ GetSubstitution matched before after rest'
            else literal
        end
      else literal
  end.

(** [s.replace(pat, replacement)] with both arguments strings: only the
    first occurrence is replaced, and the replacement text goes through
    [GetSubstitution]. *)
Definition replace (s pat replacement : string) : string :=
  match find_first pat s with
  | None => s
  | Some (before, after) =>
      before +:+ GetSubstitution pat before after replacement +:+ after
  end.

(** ** URLSearchParams *)

(** The entry list of a [URLSearchParams] object. *)
Abbreviation URLSearchParams := (list (string * string)).

(** [query.append(name, value)] *)
Definition usp_append (name value : string) (q : URLSearchParams)
  : URLSearchParams :=
  q ++ [(name, value)].

(** [query.set(name, value)]: the first entry called [name] takes the value
    and the later ones are removed; without such an entry the pair is
    appended. *)
Fixpoint usp_set (name value : string) (q : URLSearchParams)
  : URLSearchParams :=
  match q with
  | [] => [(name, value)]
  | (k, v) :: rest =>
      if String.eqb k name
      then (name, value) :: filter (λ e, e.1 ≠ name) rest
      else (k, v) :: usp_set name value rest
  end.

(** [query.getAll(name)] *)
Definition usp_getAll (name : string) (q : URLSearchParams) : list string :=
  (filter (λ e, e.1 = name) q).*2.






(** ** Exceptions *)

Inductive Thrown :=
  | Error (message : string)
  | TypeError.

(** The outcome of running a piece of code that may throw. *)
Inductive Completion (A : Type) :=
  | Normal (a : A)
  | Throw (e : Thrown).
Arguments Normal {A} a.
Arguments Throw {A} e.

#[global] Instance Completion_ret : MRet Completion := λ A a, Normal a.
#[global] Instance Completion_bind : MBind Completion := λ A B f c,
  match c with
  | Normal a => f a
  | Throw e => Throw e
  end.

(** ** The operation catalog (the OpenAPI document, as the code reads it) *)

(** One entry of [parameters]: the code reads [name], [in] and
    [schema.type] (absent when the schema declares no type). *)
Record Param := {
  param_name : string;
  param_in : string;
  schema_type : option string
}.

(** One operation; each of the three fields may be missing. *)
Record Operation := {
  operationId : option string;
  description : option string;
  parameters : option (list Param)
}.

(** A path item: the operations under the keys [get], [post] and [delete],
    the only ones the code looks at. *)
Record SdkRequestType := {
  op_get : option Operation;
  op_post : option Operation;
  op_delete : option Operation
}.

(** [Object.entries(admin.paths)]: the routes in iteration order. *)
Abbreviation Catalog := (list (string * SdkRequestType)).

(** ** Validation rules (the zod combinators the code uses) *)

Inductive ZodType :=
  | ZString
  | ZNumber
  | ZBoolean
  | ZUnknown
  | ZObjectEmpty
  | ZArray (element : ZodType)
  | ZRecord (value : ZodType)
  | ZOptional (inner : ZodType).

(** An object literal: a later entry overwrites an earlier one of the same
    key. *)
Definition object_literal {A} (entries : list (string * A)) : gmap string A :=
  foldl (λ acc e, <[e.1 := e.2]> acc) ∅ entries.

(** The spread [{...a, ...b}]: the properties of [b] win. *)
Definition spread {A} (a b : gmap string A) : gmap string A := b ∪ a.

(** ** The two surfaces *)

Inductive Surface := Admin | Store.

(** The [switch (param.schema.type)] of the reducer. *)
Definition rule_of_type (type : option string) : ZodType :=
  match type with
  | Some t =>
      if String.eqb t "string" then ZOptional ZString
      else if String.eqb t "number" then ZOptional ZNumber
      else if String.eqb t "boolean" then ZOptional ZBoolean
      else if String.eqb t "array" then ZOptional (ZArray ZString)
      else if String.eqb t "object" then ZOptional ZObjectEmpty
      else ZOptional ZString
  | None => ZOptional ZString
  end.

(** [parameters.filter((p) => p.in != "header").reduce(...)] *)
Definition paramSchema (parameters : list Param) : gmap string ZodType :=
  foldl (λ acc param, <[param_name param := rule_of_type (schema_type param)]> acc)
        ∅
        (filter (λ p, param_in p ≠ "header") parameters).

(** The object literal assigned to [bodySchema] when the method is not
    [get]; the [Object.fromEntries] part is spread in last. *)
Definition bodyCatalog (s : Surface) : gmap string ZodType :=
  match s with
  | Admin =>
      spread
        (object_literal
           [ ("title", ZOptional ZString);
             ("description", ZOptional ZString);
             ("subtitle", ZOptional ZString);
             ("handle", ZOptional ZString);
             ("status", ZOptional ZString);
             ("sku", ZOptional ZString);
             ("options", ZOptional ZUnknown);
             ("variants", ZOptional ZUnknown);
             ("images", ZOptional ZUnknown);
             ("prices", ZOptional ZUnknown);
             ("metadata", ZOptional ZUnknown);
             ("tags", ZOptional ZUnknown);
             ("type", ZOptional ZUnknown);
             ("collection_id", ZOptional ZString);
             ("categories", ZOptional ZUnknown);
             ("manage_inventory", ZOptional ZBoolean);
             ("allow_backorder", ZOptional ZBoolean) ])
        (object_literal
           (map (λ k, (k, ZOptional ZUnknown))
              [ "weight"; "length"; "height"; "width"; "hs_code"; "mid_code";
                "material"; "origin_country"; "discountable"; "is_giftcard";
                "thumbnail"; "external_id" ]))
  | Store =>
      spread
        (object_literal
           [ ("email", ZOptional ZString);
             ("password", ZOptional ZString);
             ("first_name", ZOptional ZString);
             ("last_name", ZOptional ZString);
             ("phone", ZOptional ZString);
             ("company", ZOptional ZString);
             ("address_1", ZOptional ZString);
             ("address_2", ZOptional ZString);
             ("city", ZOptional ZString);
             ("country_code", ZOptional ZString);
             ("province", ZOptional ZString);
             ("postal_code", ZOptional ZString);
             ("metadata", ZOptional (ZRecord ZUnknown)) ])
        (object_literal
           (map (λ k, (k, ZOptional ZUnknown))
              [ "items"; "shipping_address"; "billing_address"; "context";
                "region_id" ]))
  end.

(** [const bodySchema = method !== "get" ? {...} : {}] *)
Definition bodySchema (s : Surface) (method : string) : gmap string ZodType :=
  if decide (method ≠ "get") then bodyCatalog s else ∅.

(** ** What a handler can see when it runs *)

(** [adminToken] is the field of [MedusaAdminService]; [PUBLISHABLE_KEY] is
    [process.env.PUBLISHABLE_KEY], read by the store handlers. *)
Record Service := {
  adminToken : string;
  PUBLISHABLE_KEY : option string
}.

(** [new MedusaAdminService()]: the field initialiser [adminToken = ""]. *)
Definition constructor (key : option string) : Service :=
  {| adminToken := ""; PUBLISHABLE_KEY := key |}.

(** [init()]: [this.adminToken = res.toString()], for the text [res] that the
    login call resolved to. *)
Definition init (res : string) (this : Service) : Service :=
  {| adminToken := res; PUBLISHABLE_KEY := PUBLISHABLE_KEY this |}.

(** A value interpolated in a template literal. *)
Definition interpolate (v : option string) : string :=
  match v with
  | Some s => s
  | None => "undefined"
  end.

Section Compiler.
Context `{JsNumber}.

(** The one call [this.sdk.client.fetch(finalPath, {...})] a handler makes;
    its response is what the handler returns.  [fc_body = None] is an
    options object without a [body] key. *)
Record FetchCall := {
  fc_path : string;
  fc_method : string;
  fc_headers : list (string * string);
  fc_query : URLSearchParams;
  fc_body : option (gmap string JsVal)
}.

(** The compiled tool. *)
Record Tool := {
  tool_name : string;
  tool_description : option string;
  inputSchema : gmap string ZodType;
  handler : Service → gmap string JsVal → FetchCall
}.

(** *** The handler *)

Definition queryParamNames (parameters : list Param) : list string :=
  param_name <$> filter (λ p, param_in p = "query") parameters.

Definition pathParamNames (parameters : list Param) : list string :=
  param_name <$> filter (λ p, param_in p = "path") parameters.

(** The loop over [pathParamNames]. *)
Definition finalPath (refPath : string) (names : list string)
    (input : gmap string JsVal) : string :=
  foldl (λ path paramName,
           let value := js_get input paramName in
           if is_nullish value then path
           else replace path ("{" +:+ paramName +:+ "}") (js_String value))
        refPath names.

(** One round of the loop over [queryParamNames]. *)
Definition query_step (input : gmap string JsVal) (query : URLSearchParams)
    (name : string) : URLSearchParams :=
  match js_get input name with
  | JUndefined | JNull => query
  | JArr elems => foldl (λ q v, usp_append name (js_String v) q) query elems
  | value => usp_set name (js_String value) query
  end.

Definition query (names : list string) (input : gmap string JsVal)
  : URLSearchParams :=
  foldl (query_step input) [] names.

(** The loop over [Object.entries(input)] that fills [body]. *)
Definition body (qnames pnames : list string) (input : gmap string JsVal)
  : gmap string JsVal :=
  map_fold (λ key value acc,
              if decide (key ∈ qnames) then acc
              else if decide (key ∈ pnames) then acc
              else <[key := value]> acc)
           ∅ input.

(** The [Authorization] header. *)
Definition authorization (s : Surface) (this : Service) : string :=
  match s with
  | Admin => "Bearer " +:+ adminToken this
  | Store => "Bearer " +:+ interpolate (PUBLISHABLE_KEY this)
  end.

(** The handler closure of [wrapPath], over the variables it captures. *)
Definition wrapPath_handler (s : Surface) (refPath method : string)
    (parameters : list Param) (this : Service) (input : gmap string JsVal)
  : FetchCall :=
  let qnames := queryParamNames parameters in
  let pnames := pathParamNames parameters in
  {| fc_path := finalPath refPath pnames input;
     fc_method := method;
     fc_headers := [ ("Content-Type", "application/json");
                     ("Accept", "application/json");
                     ("Authorization", authorization s this) ];
     fc_query := query qnames input;
     fc_body := if decide (method = "get") then None
                else Some (body qnames pnames input) |}.

(** *** wrapPath *)

(** What the local variable [parameters] may hold after the branches. *)
Inductive ParametersValue :=
  | PArray (ps : list Param)
  | PString (s : string)
  | PUndefined.

(** The right-hand side assigned to [parameters] in the [get] branch:
    the admin file writes [refFunction.get.parameters ?? ""], the store file
    [refFunction.get.parameters]. *)
Definition get_parameters (s : Surface) (op : Operation) : ParametersValue :=
  match parameters op, s with
  | Some ps, _ => PArray ps
  | None, Admin => PString ""
  | None, Store => PUndefined
  end.

(** [parameters.filter(...)] exists only on an array. *)
Definition as_array (p : ParametersValue) : Completion (list Param) :=
  match p with
  | PArray ps => Normal ps
  | PString _ | PUndefined => Throw TypeError
  end.

(** The first branches of the callback: method, name, description and
    parameters, by the first key among [get], [post], [delete] that
    [refFunction] has. *)
Definition select_operation (s : Surface) (refFunction : SdkRequestType)
  : string * option string * option string * ParametersValue :=
  match op_get refFunction, op_post refFunction, op_delete refFunction with
  | Some g, _, _ =>
      ("get", operationId g, description g, get_parameters s g)
  | None, Some p, _ =>
      ("post", operationId p, description p, PArray (default [] (parameters p)))
  | None, None, Some d =>
      ("delete", operationId d, description d, PArray (default [] (parameters d)))
  | None, None, None =>
      ("get", None, None, PArray [])
  end.

(** [!name] *)
Definition falsy (name : option string) : bool :=
  match name with
  | None | Some EmptyString => true
  | Some (String _ _) => false
  end.

Definition decorate_name (s : Surface) (name : string) : string :=
  match s with
  | Admin => "Admin" +:+ name
  | Store => name
  end.

Definition decorate_description (s : Surface) (description : option string)
  : option string :=
  match s with
  | Admin => Some ("This tool helps store administors. " +:+ interpolate description)
  | Store => description
  end.

(** Modelled from the spec: [defineTool] of [utils/define-tools], which is
    not among the sources.  A failure while compiling one operation is fatal
    and propagates, so [defineTool] runs its callback at once and hands the
    descriptor back. *)
Definition defineTool {A} (callback : Completion A) : Completion A := callback.

Definition wrapPath (s : Surface) (refPath : string)
    (refFunction : SdkRequestType) : Completion Tool :=
  defineTool (
    let '(method, name, description, parameters) :=
      select_operation s refFunction in
    if falsy name then Throw (Error ("No name found for path: " +:+ refPath))
    else
      ps ← as_array parameters;
      mret {| tool_name := decorate_name s (default "" name);
              tool_description := decorate_description s description;
              inputSchema := spread (paramSchema ps) (bodySchema s method);
              handler := wrapPath_handler s refPath method ps |}).

(** *** defineTools *)

(** [anyRef.get && anyRef.get.operationId], as a condition. *)
Definition has_operationId (op : option Operation) : bool :=
  match op with
  | Some o => negb (falsy (operationId o))
  | None => false
  end.

Definition only_get (op : option Operation) : SdkRequestType :=
  {| op_get := op; op_post := None; op_delete := None |}.
Definition only_post (op : option Operation) : SdkRequestType :=
  {| op_get := None; op_post := op; op_delete := None |}.
Definition only_delete (op : option Operation) : SdkRequestType :=
  {| op_get := None; op_post := None; op_delete := op |}.

(** [if (cond) tools.push(this.wrapPath(path, ref))] *)
Definition push_if (s : Surface) (cond : bool) (path : string)
    (ref : SdkRequestType) (tools : list Tool) : Completion (list Tool) :=
  if cond then t ← wrapPath s path ref; mret (tools ++ [t])
  else mret tools.

(** The body of the loop over the routes. *)
Definition defineTools_route (s : Surface) (tools : list Tool)
    (entry : string * SdkRequestType) : Completion (list Tool) :=
  let '(path, anyRef) := entry in
  tools ← push_if s (has_operationId (op_get anyRef)) path
            (only_get (op_get anyRef)) tools;
  tools ← push_if s (has_operationId (op_post anyRef)) path
            (only_post (op_post anyRef)) tools;
  push_if s (has_operationId (op_delete anyRef)) path
            (only_delete (op_delete anyRef)) tools.

(** [for (const x of xs) acc = step(acc, x)], stopping at the first throw. *)
Fixpoint for_of {A B} (step : B → A → Completion B) (acc : B) (xs : list A)
  : Completion B :=
  match xs with
  | [] => mret acc
  | x :: xs' => acc' ← step acc x; for_of step acc' xs'
  end.

Definition defineTools (s : Surface) (admin : Catalog) : Completion (list Tool) :=
  for_of (defineTools_route s) [] admin.

End Compiler.

(** ** The tool list as the specification words it *)

Section CompilerSpec.
Context `{JsNumber}.

(** The (route, method) pairs of one route that carry a non-empty
    operation identifier, in the order get, post, delete; each pair is kept
    as the one-key object handed to [wrapPath]. *)
Definition qualifying (entry : string * SdkRequestType)
  : list (string * SdkRequestType) :=
  (if has_operationId (op_get entry.2)
   then [(entry.1, only_get (op_get entry.2))] else [])
  ++ (if has_operationId (op_post entry.2)
      then [(entry.1, only_post (op_post entry.2))] else [])
  ++ (if has_operationId (op_delete entry.2)
      then [(entry.1, only_delete (op_delete entry.2))] else []).

(** All qualifying pairs of a catalog, route by route. *)
Definition selected (admin : Catalog) : list (string * SdkRequestType) :=
  admin ≫= qualifying.

(** One tool per pair, in order; the first failure aborts. *)
Fixpoint compile_all (s : Surface) (pairs : list (string * SdkRequestType))
  : Completion (list Tool) :=
  match pairs with
  | [] => mret []
  | e :: rest =>
      t ← wrapPath s e.1 e.2; ts ← compile_all s rest; mret (t :: ts)
  end.

(** The keys of the input schema: the names of the parameters that are not
    header parameters, and, unless the method is [get], the surface's body
    fields. *)
Definition schema_keys (s : Surface) (method : string) (ps : list Param)
  : gset string :=
  list_to_set (param_name <$> filter (λ p, param_in p ≠ "header") ps)
  ∪ (if decide (method ≠ "get") then dom (bodyCatalog s) else ∅).

(** Some operation sits under a recognised method key without a usable
    identifier. *)
Definition unnamed_operation (admin : Catalog) : Prop :=
  ∃ path anyRef op,
    (path, anyRef) ∈ admin
    ∧ (op_get anyRef = Some op ∨ op_post anyRef = Some op
       ∨ op_delete anyRef = Some op)
    ∧ falsy (operationId op) = true.

(** A route with its unnamed operations taken out. *)
Definition drop_unnamed (anyRef : SdkRequestType) : SdkRequestType :=
  {| op_get := if has_operationId (op_get anyRef) then op_get anyRef else None;
     op_post := if has_operationId (op_post anyRef) then op_post anyRef else None;
     op_delete := if has_operationId (op_delete anyRef) then op_delete anyRef
                  else None |}.


End CompilerSpec.

(** ** The query as the specification words it *)

Section QuerySpec.
Context `{JsNumber}.

(** The entries one declared query parameter contributes: none for a null or
    undefined value, one per element for a sequence, one otherwise. *)
Definition query_entries (input : gmap string JsVal) (name : string)
  : list (string * string) :=
  match js_get input name with
  | JUndefined | JNull => []
  | JArr elems => (λ v, (name, js_String v)) <$> elems
  | value => [(name, js_String value)]
  end.

(** What one round of the query loop for the name [n] leaves under the key
    [n], given the values that were there before the round. *)
Definition after_round (input : gmap string JsVal) (n : string)
    (sofar : list string) : list string :=
  match js_get input n with
  | JUndefined | JNull => sofar
  | JArr elems => sofar ++ (js_String <$> elems)
  | value => [js_String value]
  end.

End QuerySpec.

(** ** Example data *)

Definition id_path_param : Param :=
  {| param_name := "id"; param_in := "path"; schema_type := Some "string" |}.

Definition tags_query_param : Param :=
  {| param_name := "tags"; param_in := "query"; schema_type := Some "array" |}.

Definition get_products : SdkRequestType :=
  only_get (Some {| operationId := Some "GetProducts";
                    description := Some "List products";
                    parameters := Some [tags_query_param] |}).

Definition named (id : string) (ps : option (list Param)) : Operation :=
  {| operationId := Some id; description := None; parameters := ps |}.

(** A [get] operation with an identifier and no [parameters] key. *)
Definition regions_catalog : Catalog :=
  [ ("/store/regions", only_get (Some (named "GetRegions" None))) ].

(** A [get] operation without identifier. *)
Definition orphan_catalog : Catalog :=
  [ ("/admin/orphan",
     only_get (Some {| operationId := None; description := None;
                       parameters := Some [] |})) ].

Definition metadata_param : Param :=
  {| param_name := "metadata"; param_in := "query";
     schema_type := Some "string" |}.

Definition post_with_metadata : SdkRequestType :=
  only_post (Some (named "PostCustomers" (Some [metadata_param]))).

Definition header_param : Param :=
  {| param_name := "x-publishable-api-key"; param_in := "header";
     schema_type := Some "string" |}.

Definition post_with_header : SdkRequestType :=
  only_post (Some (named "PostCarts" (Some [header_param]))).

Definition get_product : SdkRequestType :=
  only_get (Some (named "GetProductsId" (Some [id_path_param]))).

Definition get_with_metadata : SdkRequestType :=
  only_get (Some (named "GetCustomers" (Some [metadata_param]))).


Definition products_catalog : Catalog :=
  [ ("/store/products", get_products);
    ("/store/products/{id}",
     {| op_get := Some (named "GetProductsId" (Some [id_path_param]));
        op_post := Some (named "PostProductsId" (Some [id_path_param]));
        op_delete := None |}) ].

Definition post_product : SdkRequestType :=
  only_post (Some {| operationId := Some "PostProductsId";
                     description := None;
                     parameters := Some [id_path_param] |}).

(** * Properties *)

Section Properties.
Context `{JsNumber}.

(** ** What a successful [wrapPath] returns *)

Lemma falsy_false (name : option string) :
  falsy name = false → ∃ id, name = Some id ∧ id ≠ "".
Proof.
  destruct name as [[|c id]|]; simpl; try discriminate.
  intros _. by exists (String c id).
Qed.

Lemma wrapPath_Normal s refPath refFunction t :
  wrapPath s refPath refFunction = Normal t →
  ∃ method id description ps,
    select_operation s refFunction = (method, Some id, description, PArray ps)
    ∧ id ≠ ""
    ∧ t = {| tool_name := decorate_name s id;
             tool_description := decorate_description s description;
             inputSchema := spread (paramSchema ps) (bodySchema s method);
             handler := wrapPath_handler s refPath method ps |}.
Proof.
  unfold wrapPath, defineTool.
  destruct (select_operation s refFunction) as [[[method name] descr] pv].
  destruct (falsy name) eqn:Hname; [discriminate|].
  apply falsy_false in Hname as (id & -> & Hid).
  destruct pv as [ps| |]; simpl; try discriminate.
  intros [= <-]. by exists method, id, descr, ps.
Qed.

(** ** The loop of [defineTools] *)

Lemma bind_Normal {A B} (c : Completion A) (f : A → Completion B) b :
  c ≫= f = Normal b → ∃ a, c = Normal a ∧ f a = Normal b.
Proof. destruct c as [a|e]; simpl; [eauto | discriminate]. Qed.

Lemma compile_all_app s (l1 l2 : list (string * SdkRequestType)) :
  compile_all s (l1 ++ l2)
  = ts1 ← compile_all s l1; ts2 ← compile_all s l2; mret (ts1 ++ ts2).
Proof.
  induction l1 as [|e l1 IH]; simpl.
  - by destruct (compile_all s l2).
  - destruct (wrapPath s e.1 e.2) as [t|err]; simpl; [|done].
    rewrite IH. destruct (compile_all s l1) as [ts1|err]; simpl; [|done].
    by destruct (compile_all s l2).
Qed.

Lemma defineTools_route_qualifying s tools entry :
  defineTools_route s tools entry
  = ts ← compile_all s (qualifying entry); mret (tools ++ ts).
Proof.
  destruct entry as [path anyRef]. unfold defineTools_route, qualifying, push_if.
  simpl.
  destruct (has_operationId (op_get anyRef)); simpl;
    [destruct (wrapPath s path (only_get _)); simpl; [|done]|];
    (destruct (has_operationId (op_post anyRef)); simpl;
       [destruct (wrapPath s path (only_post _)); simpl; [|done]|]);
    (destruct (has_operationId (op_delete anyRef)); simpl;
       [destruct (wrapPath s path (only_delete _)); simpl; [|done]|]);
    unfold mret, Completion_ret; f_equal;
    rewrite <- ?app_assoc, ?app_nil_r; done.
Qed.

Lemma for_of_routes s tools (admin : Catalog) :
  for_of (defineTools_route s) tools admin
  = ts ← compile_all s (selected admin); mret (tools ++ ts).
Proof.
  unfold selected. revert tools.
  induction admin as [|entry admin IH]; intros tools.
  - simpl. unfold mret, Completion_ret. by rewrite app_nil_r.
  - rewrite bind_cons, compile_all_app. cbn [for_of].
    rewrite defineTools_route_qualifying.
    destruct (compile_all s (qualifying entry)) as [ts1|err]; simpl; [|done].
    rewrite IH.
    destruct (compile_all s (admin ≫= qualifying)) as [ts2|err]; simpl; [|done].
    unfold mret, Completion_ret. by rewrite app_assoc.
Qed.

Lemma defineTools_selected s (admin : Catalog) :
  defineTools s admin = compile_all s (selected admin).
Proof.
  unfold defineTools. rewrite for_of_routes.
  by destruct (compile_all s (selected admin)).
Qed.

Lemma compile_all_Normal s (pairs : list (string * SdkRequestType)) ts :
  compile_all s pairs = Normal ts →
  Forall2 (λ t e, wrapPath s e.1 e.2 = Normal t) ts pairs.
Proof.
  revert ts. induction pairs as [|e pairs IH]; intros ts; simpl.
  - intros [= <-]. constructor.
  - intros Hc. apply bind_Normal in Hc as (t & Ht & Hc).
    apply bind_Normal in Hc as (ts' & Hts & [= <-]).
    constructor; [done | by apply IH].
Qed.

Lemma selected_elem (admin : Catalog) e :
  e ∈ selected admin →
  ∃ op, has_operationId (Some op) = true
        ∧ (e.2 = only_get (Some op) ∨ e.2 = only_post (Some op)
           ∨ e.2 = only_delete (Some op)).
Proof.
  unfold selected. intros Hin.
  apply list_elem_of_bind in Hin as ([path anyRef] & Hin & _).
  unfold qualifying in Hin. simpl in Hin.
  destruct anyRef as [g p d]. simpl in Hin.
  repeat (apply elem_of_app in Hin as [Hin|Hin]);
    [ destruct g as [op|] | destruct p as [op|] | destruct d as [op|] ];
    simpl in Hin;
    try solve [by inversion Hin];
    (destruct (falsy (operationId op)) eqn:Hop; simpl in Hin;
       [by inversion Hin|]);
    apply list_elem_of_singleton in Hin as ->; exists op; simpl;
    rewrite Hop; eauto.
Qed.

(** A selected pair never makes [wrapPath] throw its own error: what can
    still go wrong is the [filter] call on a missing parameter list. *)
Lemma wrapPath_selected s (admin : Catalog) e :
  e ∈ selected admin →
  (∃ t, wrapPath s e.1 e.2 = Normal t) ∨ wrapPath s e.1 e.2 = Throw TypeError.
Proof.
  intros Hin. apply selected_elem in Hin as (op & Hop & Hshape).
  simpl in Hop. apply negb_true_iff in Hop.
  unfold wrapPath, defineTool.
  destruct Hshape as [-> | [-> | ->]]; simpl; rewrite Hop; simpl.
  - unfold get_parameters. destruct (parameters op), s; simpl; eauto.
  - eauto.
  - eauto.
Qed.

Lemma compile_all_selected s (pairs : list (string * SdkRequestType)) :
  (∀ e, e ∈ pairs →
        (∃ t, wrapPath s e.1 e.2 = Normal t) ∨ wrapPath s e.1 e.2 = Throw TypeError) →
  (∃ ts, compile_all s pairs = Normal ts) ∨ compile_all s pairs = Throw TypeError.
Proof.
  induction pairs as [|e pairs IH]; intros Hall; simpl; [eauto|].
  destruct (Hall e) as [[t ->] | ->]; [left | | by right]; simpl.
  destruct IH as [[ts ->] | ->]; simpl; eauto.
  intros e' He'. apply Hall. by right.
Qed.

(** ** The keys of the input schema *)

Lemma dom_insert_names (l : list Param) (acc : gmap string ZodType) :
  dom (foldl (λ acc param,
                <[param_name param := rule_of_type (schema_type param)]> acc)
             acc l)
  = dom acc ∪ list_to_set (param_name <$> l).
Proof.
  revert acc. induction l as [|p l IH]; intros acc; simpl.
  - set_solver.
  - rewrite IH, dom_insert_L. set_solver.
Qed.

Lemma dom_inputSchema s method ps :
  dom (spread (paramSchema ps) (bodySchema s method)) = schema_keys s method ps.
Proof.
  unfold spread, paramSchema, bodySchema, schema_keys.
  rewrite dom_union_L, dom_insert_names, dom_empty_L.
  case_decide; set_solver.
Qed.

Lemma lookup_spread {A} (a b : gmap string A) key :
  spread a b !! key = match b !! key with Some v => Some v | None => a !! key end.
Proof.
  unfold spread. rewrite lookup_union. by destruct (b !! key), (a !! key).
Qed.

(** ** The residual body *)

Lemma body_filter (qnames pnames : list string) (input : gmap string JsVal) :
  body qnames pnames input
  = filter (λ kv, (kv.1 ∉ qnames) ∧ (kv.1 ∉ pnames)) input.
Proof.
  unfold body.
  apply (map_fold_weak_ind
           (λ r m, r = filter (λ kv : string * JsVal,
                                 (kv.1 ∉ qnames) ∧ (kv.1 ∉ pnames)) m)).
  - by rewrite map_filter_empty.
  - intros key value m r Hfresh ->.
    repeat case_decide.
    + rewrite map_filter_insert_not; [done|]. intros y [Hq _]. by apply Hq.
    + rewrite map_filter_insert_not; [done|]. intros y [_ Hp]. by apply Hp.
    + by rewrite map_filter_insert_True.
Qed.


(** ** The query *)

Lemma filter_none {A} (P : A → Prop) `{∀ x, Decision (P x)} (l : list A) :
  Forall (λ x, ¬ P x) l → filter P l = [].
Proof.
  induction 1 as [|x l Hx _ IH]; [done|]. by rewrite filter_cons_False.
Qed.

Lemma filter_all {A} (P : A → Prop) `{∀ x, Decision (P x)} (l : list A) :
  Forall P l → filter P l = l.
Proof.
  induction 1 as [|x l Hx _ IH]; [done|]. by rewrite filter_cons_True, IH.
Qed.


Lemma append_each name (elems : list JsVal) (q : URLSearchParams) :
  foldl (λ q v, usp_append name (js_String v) q) q elems
  = q ++ ((λ v, (name, js_String v)) <$> elems).
Proof.
  revert q. induction elems as [|v elems IH]; intros q; simpl.
  - by rewrite app_nil_r.
  - rewrite IH. unfold usp_append. by rewrite <- app_assoc.
Qed.


Lemma query_entries_key input name e :
  e ∈ query_entries input name → e.1 = name.
Proof.
  unfold query_entries.
  destruct (js_get input name); try (intros Hin; by inversion Hin);
    try (intros Hin; apply list_elem_of_singleton in Hin; by subst).
  intros Hin. apply list_elem_of_fmap in Hin as (v & -> & _). done.
Qed.




(** ** Compiling a catalog *)


(** C2, as the code has it.  [defineTools] never fails with the error of
    [wrapPath]: an operation without a usable identifier is treated as if
    its method key were absent.  The error is what [wrapPath] itself
    returns when it is handed such an operation. *)
Theorem defineTools_skips_unnamed s :
  (∀ (admin : Catalog) message, defineTools s admin ≠ Throw (Error message))
  ∧ (∀ admin : Catalog,
       defineTools s admin = defineTools s (prod_map id drop_unnamed <$> admin))
  ∧ (∀ refPath refFunction method name descr pv,
       select_operation s refFunction = (method, name, descr, pv) →
       falsy name = true →
       wrapPath s refPath refFunction
       = Throw (Error ("No name found for path: " +:+ refPath))).
Proof.
  split; [|split].
  - intros admin message. rewrite defineTools_selected.
    destruct (compile_all_selected s (selected admin)) as [[ts ->] | ->];
      [|done..].
    intros e He. by eapply wrapPath_selected.
  - intros admin. rewrite !defineTools_selected. f_equal.
    unfold selected. induction admin as [|[path anyRef] admin IH]; [done|].
    rewrite fmap_cons, !bind_cons, IH. f_equal.
    unfold qualifying, drop_unnamed. simpl.
    destruct (has_operationId (op_get anyRef)) eqn:Hg,
             (has_operationId (op_post anyRef)) eqn:Hp,
             (has_operationId (op_delete anyRef)) eqn:Hd;
      simpl; rewrite ?Hg, ?Hp, ?Hd; done.
  - intros refPath refFunction method name descr pv Hsel Hname.
    unfold wrapPath, defineTool. by rewrite Hsel, Hname.
Qed.

(** ** The input schema *)

(** C3.  When the method is not [get], a declared parameter whose name is
    also a field of the surface's body table is mapped, in the input schema
    of the compiled tool, to the rule of the table: the table is spread in
    after the rules derived from the parameters, whatever the declared type
    or location of the parameter. *)
Theorem body_catalog_precedence s refPath refFunction t method name descr ps
    p rule :
  wrapPath s refPath refFunction = Normal t →
  select_operation s refFunction = (method, name, descr, PArray ps) →
  method ≠ "get" →
  p ∈ ps →
  bodyCatalog s !! param_name p = Some rule →
  inputSchema t !! param_name p = Some rule.
Proof.
  intros Hwrap Hsel Hm _ Hrule.
  apply wrapPath_Normal in Hwrap as (m & id & d & ps' & Hsel' & _ & ->).
  rewrite Hsel in Hsel'. injection Hsel' as <- -> <- <-.
  simpl. rewrite lookup_spread. unfold bodySchema.
  rewrite decide_True by done. by rewrite Hrule.
Qed.

(** ** Names *)


(** ** The credential *)

(** C10.  A handler of the admin surface that runs on the service as the
    constructor leaves it, before [init] has stored a token, still makes its
    call; the [Authorization] header of that call is [Bearer ] followed by
    the empty token. *)
Theorem handler_before_init refPath refFunction t key
    (input : gmap string JsVal) :
  wrapPath Admin refPath refFunction = Normal t →
  adminToken (constructor key) = ""
  ∧ ∃ path method query body,
      handler t (constructor key) input
      = {| fc_path := path;
           fc_method := method;
           fc_headers := [ ("Content-Type", "application/json");
                           ("Accept", "application/json");
                           ("Authorization", "Bearer ") ];
           fc_query := query;
           fc_body := body |}.
Proof.
  intros Hwrap. split; [done|].
  apply wrapPath_Normal in Hwrap as (m & id & d & ps & _ & _ & ->).
  simpl. unfold wrapPath_handler. by eexists _, _, _, _.
Qed.

(** Once [init] has stored the login result, the same handler sends it. *)
Lemma handler_after_init refPath refFunction t key res
    (input : gmap string JsVal) :
  wrapPath Admin refPath refFunction = Normal t →
  fc_headers (handler t (init res (constructor key)) input)
  = [ ("Content-Type", "application/json");
      ("Accept", "application/json");
      ("Authorization", "Bearer " +:+ res) ].
Proof.
  intros Hwrap.
  by apply wrapPath_Normal in Hwrap as (m & id & d & ps & _ & _ & ->).
Qed.

(** ** Purity *)

(** C8.  [defineTools] is a function of the surface and the catalog alone:
    two runs on the same catalog end the same way, hence with the same tool
    names in the same order and the same schema keys; and when a run
    returns, the name and the schema keys of each tool are those determined
    by the catalog entry at the same position of [selected]. *)
Theorem compilation_pure s (admin : Catalog) r1 r2 :
  defineTools s admin = r1 →
  defineTools s admin = r2 →
  r1 = r2
  ∧ ∀ ts, r1 = Normal ts →
      Forall2 (λ t e, ∃ method id descr ps,
                 select_operation s e.2 = (method, Some id, descr, PArray ps)
                 ∧ tool_name t = decorate_name s id
                 ∧ dom (inputSchema t) = schema_keys s method ps)
              ts (selected admin).
Proof.
  intros <- <-. split; [done|].
  intros ts Hts. rewrite defineTools_selected in Hts.
  apply compile_all_Normal in Hts.
  eapply Forall2_impl; [exact Hts|]. intros t e Hwrap. simpl in Hwrap.
  apply wrapPath_Normal in Hwrap as (m & id & d & ps & Hsel & _ & ->).
  exists m, id, d, ps. simpl. by rewrite dom_inputSchema.
Qed.

(** ** Header parameters *)

(** What does hold for a header parameter: its name is no key of the schema
    unless another declared parameter or a body field has the same name. *)
Lemma header_not_schema_key s refPath refFunction t method name descr ps n :
  wrapPath s refPath refFunction = Normal t →
  select_operation s refFunction = (method, name, descr, PArray ps) →
  (∀ p, p ∈ ps → param_name p = n → param_in p = "header") →
  (method = "get" ∨ bodyCatalog s !! n = None) →
  inputSchema t !! n = None.
Proof.
  intros Hwrap Hsel Hhdr Hbody.
  apply wrapPath_Normal in Hwrap as (m & id & d & ps' & Hsel' & _ & ->).
  rewrite Hsel in Hsel'. injection Hsel' as <- -> <- <-.
  simpl. apply not_elem_of_dom. rewrite dom_inputSchema. unfold schema_keys.
  intros Hin. apply elem_of_union in Hin as [Hin|Hin].
  - apply elem_of_list_to_set, list_elem_of_fmap in Hin as (p & -> & Hp).
    apply list_elem_of_filter in Hp as [Hne Hp]. apply Hne. by apply Hhdr.
  - case_decide as Hm; [|set_solver].
    destruct Hbody as [->|Hnone]; [done|].
    by apply not_elem_of_dom in Hnone.
Qed.

(** ** The path *)

Lemma finalPath_nullish refPath (names : list string)
    (input : gmap string JsVal) :
  (∀ n, n ∈ names → is_nullish (js_get input n) = true) →
  finalPath refPath names input = refPath.
Proof.
  unfold finalPath. revert refPath.
  induction names as [|n names IH]; intros refPath Hnull; simpl; [done|].
  rewrite (Hnull n) by left. apply IH. intros m Hm. apply Hnull. by right.
Qed.

(** Without a dollar sign the replacement text is taken as it is. *)
Lemma GetSubstitution_plain matched before after template :
  (∀ c, c ∈ list_ascii_of_string template → c ≠ "$"%char) →
  GetSubstitution matched before after template = template.
Proof.
  induction template as [|c rest IH]; intros Hplain; simpl; [done|].
  assert (Hc : Ascii.eqb c "$" = false).
  { apply Ascii.eqb_neq. apply Hplain. simpl. left. }
  rewrite Hc, IH; [done|]. intros d Hd. apply Hplain. simpl. by right.
Qed.

Lemma replace_plain s pat replacement before after :
  find_first pat s = Some (before, after) →
  (∀ c, c ∈ list_ascii_of_string replacement → c ≠ "$"%char) →
  replace s pat replacement = before +:+ replacement +:+ after.
Proof.
  intros Hfind Hplain. unfold replace.
  by rewrite Hfind, GetSubstitution_plain.
Qed.

End Properties.

(** ** The code at the inputs where it departs from the specification *)

(** C1.  The statement fails on the code for a [get] operation that has an
    identifier and no [parameters]: on both surfaces the branch for [get]
    leaves a non-array in [parameters] (the admin file defaults to the empty
    string, the store file has no default, while [post] and [delete] default
    to the empty array), the call of [filter] throws, and [defineTools]
    returns no tool list at all. *)
Theorem defineTools_get_without_parameters :
  has_operationId (op_get (only_get (Some (named "GetRegions" None)))) = true
  ∧ defineTools Admin regions_catalog = Throw TypeError
  ∧ defineTools Store regions_catalog = Throw TypeError
  ∧ (∃ t, defineTools Admin
             [ ("/store/regions", only_post (Some (named "GetRegions" None))) ]
           = Normal [t]).
Proof. repeat split. eexists. reflexivity. Qed.

(** C4.  The schema half of the statement holds at this input, the
    forwarding half does not: the loop that fills the body skips the names
    of the query and path parameters only, so an input entry under the name
    of a header parameter is sent in the body of a [post] request. *)
Theorem header_parameter_forwarded :
  ∃ t, wrapPath Store "/store/carts" post_with_header = Normal t
     ∧ inputSchema t !! "x-publishable-api-key" = None
     ∧ fc_body (handler t (constructor None)
                  (<["x-publishable-api-key" := JStr "pk_123"]> ∅))
       = Some (<["x-publishable-api-key" := JStr "pk_123"]> ∅).
Proof.
  eexists. split; [reflexivity|]. split; vm_compute; reflexivity.
Qed.

(** C6.  The statement fails on the code for a value that contains a
    dollar form: [replace] with a string replacement reads [$&] as the
    matched text and [$$] as one dollar sign, so the placeholder is not
    replaced by the string form of the value. *)
Theorem path_value_with_dollar :
  ∃ t, wrapPath Store "/store/products/{id}" get_product = Normal t
     ∧ fc_path (handler t (constructor None) (<["id" := JStr "$&"]> ∅))
       = "/store/products/{id}"
     ∧ fc_path (handler t (constructor None) (<["id" := JStr "US$$5"]> ∅))
       = "/store/products/US$5"
     ∧ fc_path (handler t (constructor None) (<["id" := JStr "42"]> ∅))
       = "/store/products/42"
     ∧ fc_path (handler t (constructor None) ∅) = "/store/products/{id}".
Proof.
  eexists. split; [reflexivity|]. repeat split; vm_compute; reflexivity.
Qed.



(** C2 as stated fails: the catalog whose only operation has no identifier
    compiles, to the empty tool list. *)
Lemma defineTools_unnamed_counterexample :
  ¬ (∀ s (admin : Catalog),
       unnamed_operation admin → ∃ e, defineTools s admin = Throw e).
Proof.
  intros Hclaim.
  destruct (Hclaim Admin orphan_catalog) as [e He]; [|discriminate He].
  unfold unnamed_operation, orphan_catalog.
  eexists _, _, _. split; [apply list_elem_of_here|].
  split; [left; reflexivity | reflexivity].
Qed.

Lemma defineTools_skips_unnamed_witness :
  defineTools Admin orphan_catalog = Normal []
  ∧ wrapPath Admin "/admin/orphan"
      (only_get (Some {| operationId := None; description := None;
                         parameters := Some [] |}))
    = Throw (Error "No name found for path: /admin/orphan").
Proof.
  destruct (defineTools_skips_unnamed Admin) as (_ & Hskip & Hthrow).
  split.
  - rewrite (Hskip orphan_catalog). reflexivity.
  - apply (Hthrow _ _ "get" None None (PArray [])); reflexivity.
Defined.

(** A string-typed parameter called [metadata] on a [post] operation: the
    schema holds the rule of the body table, on either surface, and not the
    rule of a string parameter. *)
Lemma body_catalog_precedence_witness :
  ∃ t, wrapPath Admin "/admin/customers" post_with_metadata = Normal t
     ∧ inputSchema t !! "metadata" = Some (ZOptional ZUnknown)
     ∧ rule_of_type (schema_type metadata_param) = ZOptional ZString.
Proof.
  eexists. split; [reflexivity|]. split; [|reflexivity].
  apply (body_catalog_precedence Admin "/admin/customers" post_with_metadata _
           "post" (Some "PostCustomers") None [metadata_param] metadata_param);
    [reflexivity | reflexivity | discriminate | apply list_elem_of_here
    | vm_compute; reflexivity].
Defined.


Lemma handler_before_init_witness :
  ∃ t, wrapPath Admin "/admin/products/{id}" post_product = Normal t
     ∧ (fc_headers (handler t (constructor None) ∅)) !! 2
       = Some ("Authorization", "Bearer ").
Proof.
  eexists. split; [reflexivity|].
  destruct (handler_before_init "/admin/products/{id}" post_product _ None ∅
              eq_refl) as (_ & path & method & query & body & ->).
  reflexivity.
Defined.

Lemma compilation_pure_witness :
  ∃ t, defineTools Admin [("/admin/customers", post_with_metadata)] = Normal [t]
     ∧ tool_name t = "AdminPostCustomers"
     ∧ dom (inputSchema t) = schema_keys Admin "post" [metadata_param].
Proof.
  eexists. split; [reflexivity|].
  destruct (compilation_pure Admin [("/admin/customers", post_with_metadata)]
              _ _ eq_refl eq_refl) as [_ Hkeys].
  pose proof (Hkeys _ eq_refl) as Hall.
  apply Forall2_cons_1 in Hall as [(m & id & d & ps & Hsel & Hname & Hdom) _].
  injection Hsel as <- <- <- <-. by split.
Defined.

(** * Further properties of the two compilers *)

Section Coverage.
Context `{JsNumber}.

(** ** The rules of the input schema *)

Lemma rule_of_type_optional type : ∃ inner, rule_of_type type = ZOptional inner.
Proof.
  unfold rule_of_type. destruct type as [t|]; [|eauto].
  repeat (destruct (String.eqb t _); [eauto|]). eauto.
Qed.

Lemma insert_rules_optional (l : list Param) (acc : gmap string ZodType) :
  map_Forall (λ _ rule, ∃ inner, rule = ZOptional inner) acc →
  map_Forall (λ _ rule, ∃ inner, rule = ZOptional inner)
    (foldl (λ acc param,
              <[param_name param := rule_of_type (schema_type param)]> acc)
           acc l).
Proof.
  revert acc. induction l as [|p l IH]; intros acc Hacc; simpl; [done|].
  apply IH. apply map_Forall_insert_2; [apply rule_of_type_optional | done].
Qed.

Lemma bodyCatalog_optional s :
  map_Forall (λ _ rule, ∃ inner, rule = ZOptional inner) (bodyCatalog s).
Proof.
  apply map_Forall_to_list.
  destruct s; vm_compute; repeat (constructor; [eexists; reflexivity|]);
    constructor.
Qed.

(** Every rule of a compiled tool is optional: an input that leaves any
    field out, the empty input included, passes validation. *)
Theorem inputSchema_all_optional s refPath refFunction t key rule :
  wrapPath s refPath refFunction = Normal t →
  inputSchema t !! key = Some rule →
  ∃ inner, rule = ZOptional inner.
Proof.
  intros Hwrap Hrule.
  apply wrapPath_Normal in Hwrap as (m & id & d & ps & _ & _ & ->).
  simpl in Hrule. unfold spread in Hrule.
  apply lookup_union_Some_raw in Hrule as [Hbody | [_ Hparam]].
  - unfold bodySchema in Hbody. case_decide; [|by rewrite lookup_empty in Hbody].
    by apply (bodyCatalog_optional s key).
  - revert Hparam. apply insert_rules_optional, map_Forall_empty.
Qed.

Lemma insert_rules_other (l : list Param) (acc : gmap string ZodType) key :
  (∀ q, q ∈ l → param_name q ≠ key) →
  foldl (λ acc param,
           <[param_name param := rule_of_type (schema_type param)]> acc)
        acc l !! key
  = acc !! key.
Proof.
  revert acc. induction l as [|p l IH]; intros acc Hother; simpl; [done|].
  rewrite IH by (intros q Hq; apply Hother; by right).
  apply lookup_insert_ne, Hother. left.
Qed.

Lemma paramSchema_last ps1 p ps2 :
  param_in p ≠ "header" →
  (∀ q, q ∈ ps2 → param_in q ≠ "header" → param_name q ≠ param_name p) →
  paramSchema (ps1 ++ p :: ps2) !! param_name p
  = Some (rule_of_type (schema_type p)).
Proof.
  intros Hp Hlater. unfold paramSchema.
  rewrite filter_app, filter_cons_True by done.
  rewrite foldl_app. cbn [foldl].
  rewrite insert_rules_other; [apply lookup_insert_eq|].
  intros q Hq. apply list_elem_of_filter in Hq as [Hin Hq]. by apply Hlater.
Qed.

(** The rule of a declared parameter that is not a header parameter is the
    one its declared type gives, provided no later such parameter has the
    same name and, for [post] and [delete], no body field has it.  Among
    parameters of one name the last declared wins; on [get] tools the body
    table plays no part. *)
Theorem inputSchema_declared_rule s refPath refFunction t method name descr
    ps1 p ps2 :
  wrapPath s refPath refFunction = Normal t →
  select_operation s refFunction = (method, name, descr, PArray (ps1 ++ p :: ps2)) →
  param_in p ≠ "header" →
  (∀ q, q ∈ ps2 → param_in q ≠ "header" → param_name q ≠ param_name p) →
  method = "get" ∨ bodyCatalog s !! param_name p = None →
  inputSchema t !! param_name p = Some (rule_of_type (schema_type p)).
Proof.
  intros Hwrap Hsel Hp Hlater Hbody.
  apply wrapPath_Normal in Hwrap as (m & id & d & ps' & Hsel' & _ & ->).
  rewrite Hsel in Hsel'. injection Hsel' as <- -> <- <-.
  simpl. rewrite lookup_spread.
  assert (Hnone : bodySchema s method !! param_name p = None).
  { unfold bodySchema. destruct Hbody as [-> | Hnone].
    - by rewrite decide_False by (intros Hne; by apply Hne).
    - case_decide; [done | apply lookup_empty]. }
  rewrite Hnone. by apply paramSchema_last.
Qed.

(** ** The outcomes of [wrapPath] *)


(** ** The list [defineTools] returns *)



Lemma qualifying_length entry : length (qualifying entry) ≤ 3.
Proof.
  unfold qualifying.
  destruct (has_operationId (op_get entry.2)),
           (has_operationId (op_post entry.2)),
           (has_operationId (op_delete entry.2)); simpl; lia.
Qed.

Lemma selected_length (admin : Catalog) :
  length (selected admin) ≤ 3 * length admin.
Proof.
  unfold selected. induction admin as [|entry admin IH]; simpl; [lia|].
  change (length ((entry :: admin) ≫= qualifying) ≤ 3 * S (length admin)).
  rewrite bind_cons, length_app. pose proof (qualifying_length entry). lia.
Qed.

(** Compiling two catalogs one after the other is compiling their
    concatenation; the first failure, in catalog order, is the failure of
    the whole. *)
Theorem defineTools_app s (admin1 admin2 : Catalog) :
  defineTools s (admin1 ++ admin2)
  = ts1 ← defineTools s admin1; ts2 ← defineTools s admin2; mret (ts1 ++ ts2).
Proof.
  rewrite !defineTools_selected. unfold selected.
  rewrite bind_app. apply compile_all_app.
Qed.

(** A returned list has one tool per qualifying (route, method) pair, so at
    most three tools per route. *)
Theorem defineTools_count s (admin : Catalog) ts :
  defineTools s admin = Normal ts →
  length ts = length (selected admin) ∧ length ts ≤ 3 * length admin.
Proof.
  intros Hts. rewrite defineTools_selected in Hts.
  apply compile_all_Normal, Forall2_length in Hts.
  split; [done|]. rewrite Hts. apply selected_length.
Qed.


(** ** Names and descriptions *)

(** A compiled tool never has the empty name. *)
Theorem tool_name_nonempty s refPath refFunction t :
  wrapPath s refPath refFunction = Normal t → tool_name t ≠ "".
Proof.
  intros Hwrap.
  apply wrapPath_Normal in Hwrap as (m & id & d & ps & _ & Hid & ->).
  simpl. by destruct s.
Qed.

(** The store surface hands name and description over as the catalog has
    them, a missing description staying undefined; the admin surface always
    produces a description, its fixed sentence followed by the catalog's
    text or by the word undefined. *)
Theorem tool_descriptions s (admin : Catalog) ts :
  defineTools s admin = Normal ts →
  Forall2 (λ t e,
             let sel := select_operation s e.2 in
             match s with
             | Store => sel.1.1.2 = Some (tool_name t)
                        ∧ tool_description t = sel.1.2
             | Admin => tool_description t
                        = Some ("This tool helps store administors. "
                                +:+ default "undefined" sel.1.2)
             end)
          ts (selected admin).
Proof.
  intros Hts. rewrite defineTools_selected in Hts.
  apply compile_all_Normal in Hts.
  eapply Forall2_impl; [exact Hts|]. intros t e Hwrap. simpl in Hwrap.
  apply wrapPath_Normal in Hwrap as (m & id & d & ps & Hsel & _ & ->).
  rewrite Hsel. destruct s; simpl; [by destruct d | done].
Qed.

(** ** The path *)

Lemma strip_prefix_app p s rest :
  strip_prefix p s = Some rest → s = p +:+ rest.
Proof.
  revert s. induction p as [|a p IH]; intros s; simpl.
  - by intros [= ->].
  - destruct s as [|b s]; [discriminate|].
    destruct (Ascii.eqb_spec a b) as [->|_]; [|discriminate].
    intros Hs. by rewrite (IH _ Hs).
Qed.

Lemma find_first_split pat s before after :
  find_first pat s = Some (before, after) → s = before +:+ pat +:+ after.
Proof.
  revert before. induction s as [|c s IH]; intros before; simpl.
  - destruct (strip_prefix pat "") as [rest|] eqn:Hp; [|discriminate].
    intros [= <- <-]. by apply strip_prefix_app in Hp.
  - destruct (strip_prefix pat (String c s)) as [rest|] eqn:Hp.
    + intros [= <- <-]. by apply strip_prefix_app in Hp.
    + destruct (find_first pat s) as [[b a]|]; [|discriminate].
      intros [= <- <-].
      change (String c s = String c (b +:+ pat +:+ a)). f_equal. by apply IH.
Qed.



(** With one declared path parameter whose value has a string form free of
    dollar signs, the path of the call is the template with the first
    placeholder of that name replaced by the string form; what follows the
    first placeholder is copied as it is. *)
Theorem handler_path_substituted s refPath refFunction t method name descr ps
    this (input : gmap string JsVal) n before after :
  wrapPath s refPath refFunction = Normal t →
  select_operation s refFunction = (method, name, descr, PArray ps) →
  pathParamNames ps = [n] →
  is_nullish (js_get input n) = false →
  (∀ c, c ∈ list_ascii_of_string (js_String (js_get input n)) → c ≠ "$"%char) →
  find_first ("{" +:+ n +:+ "}") refPath = Some (before, after) →
  refPath = before +:+ ("{" +:+ n +:+ "}") +:+ after
  ∧ fc_path (handler t this input)
    = before +:+ js_String (js_get input n) +:+ after.
Proof.
  intros Hwrap Hsel Hnames Hvalue Hplain Hfind.
  split; [by apply find_first_split|].
  apply wrapPath_Normal in Hwrap as (m & id & d & ps' & Hsel' & _ & ->).
  rewrite Hsel in Hsel'. injection Hsel' as <- -> <- <-.
  simpl. rewrite Hnames. unfold finalPath. simpl. rewrite Hvalue.
  by apply replace_plain.
Qed.

(** ** The query, with names declared more than once *)

Lemma getAll_app n (q1 q2 : URLSearchParams) :
  usp_getAll n (q1 ++ q2) = usp_getAll n q1 ++ usp_getAll n q2.
Proof. unfold usp_getAll. by rewrite filter_app, fmap_app. Qed.

Lemma getAll_without n (q : URLSearchParams) :
  usp_getAll n (filter (λ e, e.1 ≠ n) q) = [].
Proof.
  unfold usp_getAll. rewrite filter_none; [done|].
  apply Forall_forall. intros e He. by apply list_elem_of_filter in He as [? _].
Qed.

Lemma getAll_without_other n m (q : URLSearchParams) :
  m ≠ n → usp_getAll n (filter (λ e, e.1 ≠ m) q) = usp_getAll n q.
Proof.
  intros Hne. unfold usp_getAll. f_equal.
  induction q as [|[k v] q IH]; [done|].
  destruct (decide (k = m)) as [->|Hk].
  - rewrite (filter_cons_False (λ e, e.1 ≠ m)) by (simpl; tauto).
    rewrite IH. by rewrite (filter_cons_False (λ e, e.1 = n)).
  - rewrite (filter_cons_True (λ e, e.1 ≠ m)) by done.
    destruct (decide (k = n)) as [->|Hkn].
    + rewrite !(filter_cons_True (λ e, e.1 = n)) by done. by rewrite IH.
    + rewrite !(filter_cons_False (λ e, e.1 = n)) by done. done.
Qed.

Lemma getAll_set_same n v (q : URLSearchParams) :
  usp_getAll n (usp_set n v q) = [v].
Proof.
  induction q as [|[k v'] q IH]; simpl.
  - unfold usp_getAll. by rewrite filter_cons_True.
  - destruct (String.eqb_spec k n) as [->|Hk].
    + change ((n, v) :: filter (λ e, e.1 ≠ n) q)
        with ([(n, v)] ++ filter (λ e, e.1 ≠ n) q).
      rewrite getAll_app, getAll_without.
      unfold usp_getAll. by rewrite filter_cons_True.
    + change ((k, v') :: usp_set n v q) with ([(k, v')] ++ usp_set n v q).
      rewrite getAll_app, IH. unfold usp_getAll.
      by rewrite filter_cons_False.
Qed.

Lemma getAll_set_other n m v (q : URLSearchParams) :
  m ≠ n → usp_getAll n (usp_set m v q) = usp_getAll n q.
Proof.
  intros Hne. induction q as [|[k v'] q IH]; simpl.
  - unfold usp_getAll. by rewrite filter_cons_False.
  - destruct (String.eqb_spec k m) as [->|Hk].
    + change ((m, v) :: filter (λ e, e.1 ≠ m) q)
        with ([(m, v)] ++ filter (λ e, e.1 ≠ m) q).
      change ((m, v') :: q) with ([(m, v')] ++ q).
      rewrite !getAll_app, getAll_without_other by done.
      unfold usp_getAll. by rewrite !filter_cons_False.
    + change ((k, v') :: usp_set m v q) with ([(k, v')] ++ usp_set m v q).
      change ((k, v') :: q) with ([(k, v')] ++ q).
      by rewrite !getAll_app, IH.
Qed.

Lemma getAll_entries_same (input : gmap string JsVal) n :
  usp_getAll n (query_entries input n) = (query_entries input n).*2.
Proof.
  unfold usp_getAll. f_equal. apply filter_all, Forall_forall.
  intros e He. by apply query_entries_key in He.
Qed.

Lemma getAll_entries_other (input : gmap string JsVal) n m :
  m ≠ n → usp_getAll n (query_entries input m) = [].
Proof.
  intros Hne. unfold usp_getAll. rewrite filter_none; [done|].
  apply Forall_forall. intros e He Hen.
  apply query_entries_key in He. congruence.
Qed.

Lemma query_step_other (input : gmap string JsVal) n m (q : URLSearchParams) :
  m ≠ n → usp_getAll n (query_step input q m) = usp_getAll n q.
Proof.
  intros Hne. unfold query_step.
  destruct (js_get input m) eqn:Hv; try done;
    try (by apply getAll_set_other).
  rewrite append_each, getAll_app.
  pose proof (getAll_entries_other input n m Hne) as Hnone.
  unfold query_entries in Hnone. rewrite Hv in Hnone.
  by rewrite Hnone, app_nil_r.
Qed.

Lemma query_step_same (input : gmap string JsVal) n (q : URLSearchParams) :
  usp_getAll n (query_step input q n) = after_round input n (usp_getAll n q).
Proof.
  unfold query_step, after_round.
  destruct (js_get input n) eqn:Hv; try done;
    try (by apply getAll_set_same).
  rewrite append_each, getAll_app. f_equal.
  pose proof (getAll_entries_same input n) as Hsame.
  unfold query_entries in Hsame. rewrite Hv in Hsame.
  rewrite Hsame, <- list_fmap_compose. done.
Qed.

Lemma query_rounds (input : gmap string JsVal) n (names : list string)
    (acc : URLSearchParams) :
  usp_getAll n (foldl (query_step input) acc names)
  = Nat.iter (length (filter (λ m, m = n) names)) (after_round input n)
      (usp_getAll n acc).
Proof.
  revert acc. induction names as [|m names IH]; intros acc; [done|].
  cbn [foldl]. rewrite IH. destruct (decide (m = n)) as [->|Hne].
  - rewrite filter_cons_True by done. cbn [length].
    rewrite Nat.iter_succ_r. by rewrite query_step_same.
  - rewrite filter_cons_False by done. by rewrite query_step_other.
Qed.




(** ** What a handler reads of its input *)

Lemma finalPath_ext refPath (names : list string)
    (input1 input2 : gmap string JsVal) :
  (∀ n, n ∈ names → js_get input1 n = js_get input2 n) →
  finalPath refPath names input1 = finalPath refPath names input2.
Proof.
  unfold finalPath. revert refPath.
  induction names as [|n names IH]; intros refPath Hagree; simpl; [done|].
  rewrite (Hagree n) by left. apply IH. intros m Hm. apply Hagree. by right.
Qed.

Lemma query_ext (names : list string) (input1 input2 : gmap string JsVal) :
  (∀ n, n ∈ names → js_get input1 n = js_get input2 n) →
  query names input1 = query names input2.
Proof.
  unfold query. generalize (@nil (string * string)) as acc.
  induction names as [|n names IH]; intros acc Hagree; simpl; [done|].
  unfold query_step at 2 4. rewrite (Hagree n) by left.
  apply IH. intros m Hm. apply Hagree. by right.
Qed.

(** The path depends on the input only through the values under the declared
    path-parameter names, the query only through those under the declared
    query-parameter names; the whole call of a [get] tool is the same for
    two inputs that agree under both. *)
Theorem handler_reads_declared_only s refPath refFunction t method name
    descr ps this (input1 input2 : gmap string JsVal) :
  wrapPath s refPath refFunction = Normal t →
  select_operation s refFunction = (method, name, descr, PArray ps) →
  ((∀ n, n ∈ pathParamNames ps → js_get input1 n = js_get input2 n) →
   fc_path (handler t this input1) = fc_path (handler t this input2))
  ∧ ((∀ n, n ∈ queryParamNames ps → js_get input1 n = js_get input2 n) →
     fc_query (handler t this input1) = fc_query (handler t this input2))
  ∧ (method = "get" →
     (∀ n, n ∈ pathParamNames ps ++ queryParamNames ps →
           js_get input1 n = js_get input2 n) →
     handler t this input1 = handler t this input2).
Proof.
  intros Hwrap Hsel.
  apply wrapPath_Normal in Hwrap as (m & id & d & ps' & Hsel' & _ & ->).
  rewrite Hsel in Hsel'. injection Hsel' as <- -> <- <-.
  simpl. split; [|split].
  - apply finalPath_ext.
  - apply query_ext.
  - intros -> Hagree. unfold wrapPath_handler. simpl. f_equal.
    + apply finalPath_ext. intros n Hn. apply Hagree, elem_of_app. by left.
    + apply query_ext. intros n Hn. apply Hagree, elem_of_app. by right.
Qed.

(** ** [init] *)

(** Storing a login result changes nothing in the calls of store tools, and
    in the calls of admin tools only the [Authorization] header, which then
    carries the result stored last. *)
Theorem init_changes_admin_authorization_only s refPath refFunction t res
    this (input : gmap string JsVal) :
  wrapPath s refPath refFunction = Normal t →
  let before := handler t this input in
  let after := handler t (init res this) input in
  match s with
  | Store => after = before
  | Admin =>
      after = {| fc_path := fc_path before;
                 fc_method := fc_method before;
                 fc_headers := [ ("Content-Type", "application/json");
                                 ("Accept", "application/json");
                                 ("Authorization", "Bearer " +:+ res) ];
                 fc_query := fc_query before;
                 fc_body := fc_body before |}
  end.
Proof.
  intros Hwrap.
  apply wrapPath_Normal in Hwrap as (m & id & d & ps & _ & _ & ->).
  by destruct s.
Qed.

(** ** Query and body together *)

(** No input entry is sent twice: a key under which the query of a call
    holds an entry is not a key of the body of that call. *)
Theorem query_and_body_disjoint s refPath refFunction t this
    (input : gmap string JsVal) key b :
  wrapPath s refPath refFunction = Normal t →
  usp_getAll key (fc_query (handler t this input)) ≠ [] →
  fc_body (handler t this input) = Some b →
  b !! key = None.
Proof.
  intros Hwrap Hquery Hbody.
  apply wrapPath_Normal in Hwrap as (m & id & d & ps & _ & _ & ->).
  simpl in Hquery, Hbody.
  case_decide; [discriminate|]. injection Hbody as <-.
  rewrite body_filter. apply map_lookup_filter_None. right.
  intros v _ [Hq _]. simpl in Hq. apply Hquery.
  unfold query. rewrite query_rounds.
  rewrite (filter_none (λ m0, m0 = key)); [done|].
  apply Forall_forall. by intros n Hn ->.
Qed.

End Coverage.

(** ** The further properties at concrete inputs *)

Lemma inputSchema_all_optional_witness :
  ∃ t, wrapPath Store "/store/carts" post_with_header = Normal t
     ∧ ∃ inner, ZOptional (ZRecord ZUnknown) = ZOptional inner.
Proof.
  eexists. split; [reflexivity|].
  apply (inputSchema_all_optional Store "/store/carts" post_with_header _
           "metadata" (ZOptional (ZRecord ZUnknown)) eq_refl).
  vm_compute. reflexivity.
Defined.

Lemma inputSchema_declared_rule_witness :
  ∃ t, wrapPath Admin "/admin/customers" get_with_metadata = Normal t
     ∧ inputSchema t !! "metadata" = Some (ZOptional ZString).
Proof.
  eexists. split; [reflexivity|].
  apply (inputSchema_declared_rule Admin "/admin/customers" get_with_metadata
           _ "get" (Some "GetCustomers") None [] metadata_param []);
    [reflexivity | reflexivity | discriminate | | by left].
  intros q Hq. by inversion Hq.
Defined.


Lemma defineTools_count_witness :
  ∃ ts, defineTools Store products_catalog = Normal ts ∧ length ts = 3.
Proof.
  eexists. split; [reflexivity|].
  by destruct (defineTools_count Store products_catalog _ eq_refl) as [-> _].
Defined.



Lemma tool_name_nonempty_witness :
  ∃ t, wrapPath Store "/store/products" get_products = Normal t
     ∧ tool_name t ≠ "".
Proof.
  eexists. split; [reflexivity|].
  by apply (tool_name_nonempty Store "/store/products" get_products _ eq_refl).
Defined.

Lemma tool_descriptions_witness :
  ∃ t, defineTools Admin [("/admin/customers", post_with_metadata)] = Normal [t]
     ∧ tool_description t
       = Some "This tool helps store administors. undefined".
Proof.
  eexists. split; [reflexivity|].
  pose proof (tool_descriptions Admin [("/admin/customers", post_with_metadata)]
                _ eq_refl) as Hall.
  by apply Forall2_cons_1 in Hall as [-> _].
Defined.


Lemma handler_path_substituted_witness :
  ∃ t, wrapPath Store "/store/products/{id}" get_product = Normal t
     ∧ fc_path (handler t (constructor None)
                  (<["id" := @JNum Z_JsNumber 42%Z]> ∅))
       = "/store/products/42".
Proof.
  eexists. split; [reflexivity|].
  assert (Hplain : ∀ c, c ∈ list_ascii_of_string "42" → c ≠ "$"%char).
  { intros c Hc. simpl in Hc.
    repeat (apply elem_of_cons in Hc as [-> | Hc]); try discriminate.
    by inversion Hc. }
  destruct (handler_path_substituted Store "/store/products/{id}" get_product
              _ "get" (Some "GetProductsId") None [id_path_param]
              (constructor None) (<["id" := @JNum Z_JsNumber 42%Z]> ∅) "id"
              "/store/products/" "" eq_refl eq_refl eq_refl)
    as [_ Hpath];
    [vm_compute; reflexivity | exact Hplain | reflexivity |].
  rewrite Hpath. vm_compute. reflexivity.
Defined.


Lemma handler_reads_declared_only_witness :
  ∃ t, wrapPath Store "/store/products/{id}" get_product = Normal t
     ∧ handler t (constructor None)
         (<["id" := JStr "p1"]> (<["debug" := JBool true]> ∅))
       = handler t (constructor None) (<["id" := JStr "p1"]> ∅).
Proof.
  eexists. split; [reflexivity|].
  destruct (handler_reads_declared_only Store "/store/products/{id}"
              get_product _ "get" (Some "GetProductsId") None [id_path_param]
              (constructor None)
              (<["id" := JStr "p1"]> (<["debug" := JBool true]> ∅))
              (<["id" := JStr "p1"]> ∅) eq_refl eq_refl) as (_ & _ & Hget).
  apply Hget; [reflexivity|].
  intros n Hn. vm_compute in Hn.
  apply list_elem_of_singleton in Hn as ->. reflexivity.
Defined.

Lemma init_changes_admin_authorization_only_witness :
  ∃ t, wrapPath Admin "/admin/products/{id}" post_product = Normal t
     ∧ fc_headers (handler t (init "tok2" (init "tok1" (constructor None))) ∅)
       !! 2
       = Some ("Authorization", "Bearer tok2").
Proof.
  eexists. split; [reflexivity|].
  pose proof (init_changes_admin_authorization_only Admin
                "/admin/products/{id}" post_product _ "tok2"
                (init "tok1" (constructor None)) ∅ eq_refl) as Hafter.
  cbv zeta in Hafter. by rewrite Hafter.
Defined.

Lemma header_not_schema_key_witness :
  ∃ t, wrapPath Store "/store/carts" post_with_header = Normal t
     ∧ inputSchema t !! "x-publishable-api-key" = None.
Proof.
  eexists. split; [reflexivity|].
  apply (header_not_schema_key Store "/store/carts" post_with_header _
           "post" (Some "PostCarts") None [header_param]);
    [reflexivity | reflexivity | | right; vm_compute; reflexivity].
  intros p Hp _. by apply list_elem_of_singleton in Hp as ->.
Defined.

Lemma query_and_body_disjoint_witness :
  ∃ t b, wrapPath Admin "/admin/products" 
           (only_post (Some (named "PostProducts" (Some [tags_query_param]))))
         = Normal t
       ∧ fc_body (handler t (constructor None)
                    (<["tags" := JStr "a"]> (<["title" := JStr "T"]> ∅)))
         = Some b
       ∧ b !! "tags" = None.
Proof.
  eexists _, _. split; [reflexivity|]. split; [reflexivity|].
  apply (query_and_body_disjoint Admin "/admin/products"
           (only_post (Some (named "PostProducts" (Some [tags_query_param]))))
           _ (constructor None)
           (<["tags" := JStr "a"]> (<["title" := JStr "T"]> ∅)) "tags" _
           eq_refl); [|reflexivity].
  vm_compute. discriminate.
Defined.
